(** * Verification of the RBF cooperative-close state graph and the generic
    protocol FSM driver of lnd.

    Sources:
    - lnwallet/chancloser/rbf_coop_states.go  (module [Chancloser])
    - protofsm/state_machine.go               (module [Protofsm])  *)

From Stdlib Require Import ZArith List Bool String Lia.
Import ListNotations.
Open Scope Z_scope.

(* ------------------------------------------------------------------ *)
(** ** lnwallet/chancloser/rbf_coop_states.go *)

Module Chancloser.

(** The sealed [ProtocolEvent] interface: one constructor per implementing
    struct.  Payloads are not consulted by any of the methods modelled here
    (type switches only look at the dynamic type), so they are left out. *)
Inductive ProtocolEvent : Type :=
| SendShutdown
| ShutdownReceived
| ShutdownComplete
| ChannelFlushed
| SendOfferEvent
| OfferReceivedEvent
| LocalSigReceived
| SpendEvent.

(** The sealed [ProtocolState] interface ([ProtocolStates] constraint). *)
Inductive ProtocolState : Type :=
| ChannelActive
| ShutdownPending
| ChannelFlushing
| ClosingNegotiation
| LocalCloseStart
| LocalOfferSent
| RemoteCloseStart
| ClosePending
| CloseFin.

(** [IsTerminal] of every state, method by method. *)
Definition IsTerminal (s : ProtocolState) : bool :=
  match s with
  | ChannelActive => false       (* ChannelActive.IsTerminal *)
  | ShutdownPending => false     (* ShutdownPending.IsTerminal *)
  | ChannelFlushing => false     (* ChannelFlushing.IsTerminal *)
  | ClosingNegotiation => false  (* ClosingNegotiation.IsTerminal *)
  | LocalCloseStart => false     (* LocalCloseStart.IsTerminal *)
  | LocalOfferSent => false      (* LocalOfferSent.IsTerminal *)
  | RemoteCloseStart => false    (* RemoteCloseStart.IsTerminal *)
  | ClosePending => true         (* ClosePending.IsTerminal *)
  | CloseFin => true             (* CloseFin.IsTerminal *)
  end.

(** The states that implement [AsymmetricPeerState] (they have a
    [ShouldRouteTo] method). *)
Inductive AsymmetricPeerState : Type :=
| APLocalCloseStart
| APLocalOfferSent
| APClosePending
| APRemoteCloseStart.

Definition asProtocolState (a : AsymmetricPeerState) : ProtocolState :=
  match a with
  | APLocalCloseStart => LocalCloseStart
  | APLocalOfferSent => LocalOfferSent
  | APClosePending => ClosePending
  | APRemoteCloseStart => RemoteCloseStart
  end.

(** [ShouldRouteTo]: each method is a type switch with a single accepted
    case and [default: return false]. *)
Definition ShouldRouteTo (a : AsymmetricPeerState) (ev : ProtocolEvent) : bool :=
  match a, ev with
  | APLocalCloseStart, SendOfferEvent => true
  | APLocalOfferSent, LocalSigReceived => true
  | APClosePending, SpendEvent => true
  | APRemoteCloseStart, OfferReceivedEvent => true
  | _, _ => false
  end.

(** Balances: [lnwire.MilliSatoshi] is a uint64; [btcutil.Amount] an int64. *)
Definition MilliSatoshi := Z.
Definition Amount := Z.

(** [MilliSatoshi.ToSatoshis]: [btcutil.Amount(m / mSatScale)] with
    [mSatScale = 1000].  For every uint64 [m], [m / 1000 < 2^63], so the
    conversion to int64 does not wrap. *)
Definition mSatScale : Z := 1000.
Definition ToSatoshis (m : MilliSatoshi) : Amount := m / mSatScale.

Record ShutdownBalances := mkShutdownBalances {
  LocalBalance : MilliSatoshi;
  RemoteBalance : MilliSatoshi
}.

Record ShutdownScripts := mkShutdownScripts {
  LocalDeliveryScript : list Byte.byte;
  RemoteDeliveryScript : list Byte.byte
}.

(** [CloseChannelTerms] embeds both structs. *)
Record CloseChannelTerms := mkCloseChannelTerms {
  Balances : ShutdownBalances;
  Scripts : ShutdownScripts
}.

(** [wire.TxOut]. *)
Record TxOut := mkTxOut {
  PkScript : list Byte.byte;
  Value : Z
}.

Section Dust.

(** [lnwallet.DustLimitForSize] lives in the lnwallet package, outside
    this file; every result below holds for any such function. *)
Variable DustLimitForSize : Z -> Amount.

(** The closure [deriveTxOut] inside [DeriveCloseTxOuts]; [nil] is [None]. *)
Definition deriveTxOut (balance : Amount) (pkScript : list Byte.byte)
    : option TxOut :=
  let dustLimit := DustLimitForSize (Z.of_nat (List.length pkScript)) in
  if dustLimit <? balance
  then Some (mkTxOut pkScript balance)
  else None.

Definition DeriveCloseTxOuts (c : CloseChannelTerms) : option TxOut * option TxOut :=
  let localTxOut :=
    deriveTxOut (ToSatoshis (LocalBalance (Balances c)))
                (LocalDeliveryScript (Scripts c)) in
  let remoteTxOut :=
    deriveTxOut (ToSatoshis (RemoteBalance (Balances c)))
                (RemoteDeliveryScript (Scripts c)) in
  (localTxOut, remoteTxOut).

Definition RemoteAmtIsDust (c : CloseChannelTerms) : bool :=
  ToSatoshis (RemoteBalance (Balances c)) <?
    DustLimitForSize (Z.of_nat (List.length (RemoteDeliveryScript (Scripts c)))).

Definition LocalAmtIsDust (c : CloseChannelTerms) : bool :=
  ToSatoshis (LocalBalance (Balances c)) <?
    DustLimitForSize (Z.of_nat (List.length (LocalDeliveryScript (Scripts c)))).

End Dust.

Definition LocalCanPayFees (c : CloseChannelTerms) (absoluteFee : Amount) : bool :=
  absoluteFee <=? ToSatoshis (LocalBalance (Balances c)).

Definition RemoteCanPayFees (c : CloseChannelTerms) (absoluteFee : Amount) : bool :=
  absoluteFee <=? ToSatoshis (RemoteBalance (Balances c)).

(** [chainntnfs.SpendDetail] (the fields read by [SpendMapper]);
    [SpendingHeight] is an int32. *)
Record SpendDetail := mkSpendDetail {
  SpendingTx : list Byte.byte;
  SpendingHeight : Z
}.

(** The payload of the [SpendEvent] struct; [BlockHeight] is a uint32. *)
Record SpendEventData := mkSpendEventData {
  SpendTx : list Byte.byte;
  BlockHeight : Z
}.

(** The Go conversion [uint32(x)] of an integer: reduction modulo 2^32. *)
Definition toUint32 (x : Z) : Z := x mod 2 ^ 32.

(** [SpendMapper]. *)
Definition SpendMapper (spendEvent : SpendDetail) : SpendEventData :=
  mkSpendEventData (SpendingTx spendEvent) (toUint32 (SpendingHeight spendEvent)).

End Chancloser.

(* ------------------------------------------------------------------ *)
(** ** protofsm/state_machine.go *)

Module Protofsm.

(** Opaque payload types of the daemon events. *)
Definition PublicKey := list Byte.byte.
Definition Hash := list Byte.byte.
Definition MsgTx := list Byte.byte.
Record OutPoint := mkOutPoint { OPHash : Hash; OPIndex : Z }.
(** [lnwire.Message]: only passed through, never inspected. *)
Definition Message := nat.
(** An [error] value returned by a daemon adapter or a transition. *)
Definition GoError := nat.
(** [SendPredicate] is a [func() bool]. *)
Definition SendPredicate := unit -> bool.

(** The daemon events handled by [executeDaemonEvent]. *)
Inductive DaemonEvent (Event : Type) : Type :=
| SendMsgEvent (TargetPeer : PublicKey) (Msgs : list Message)
    (SendWhen : option SendPredicate) (PostSendEvent : option Event)
| DisableChannelEvent (ChanPoint : OutPoint)
| BroadcastTxn (Tx : MsgTx) (Label : string)
| RegisterSpend (OP : OutPoint) (PkScript : list Byte.byte) (HeightHint : N)
    (PostSpendEvent : option Event)
| RegisterConf (Txid : Hash) (PkScript : list Byte.byte) (HeightHint : N)
    (NumConfs : option N) (PostConfEvent : option Event).
Arguments SendMsgEvent {Event}.
Arguments DisableChannelEvent {Event}.
Arguments BroadcastTxn {Event}.
Arguments RegisterSpend {Event}.
Arguments RegisterConf {Event}.

(** [EmittedEvent] and [StateTransition]. *)
Record EmittedEvent (Event : Type) := mkEmittedEvent {
  InternalEvent : option Event;
  ExternalEvents : option (list (DaemonEvent Event))
}.
Arguments mkEmittedEvent {Event}.
Arguments InternalEvent {Event}.
Arguments ExternalEvents {Event}.

Record StateTransition (State Event : Type) := mkStateTransition {
  NextState : State;
  NewEvents : option (EmittedEvent Event)
}.
Arguments mkStateTransition {State Event}.
Arguments NextState {State Event}.
Arguments NewEvents {State Event}.

(** The [State] interface: [ProcessEvent] returns a transition or an error. *)
Class FsmState (State Event Env : Type) := {
  ProcessEvent : State -> Event -> Env -> GoError + StateTransition State Event;
  IsTerminal : State -> bool
}.

(** The [DaemonAdapters] interface.  Each method is modelled by its error
    result ([None] is a nil error); the returned notification channels are
    represented by the waiter tasks spawned on them. *)
Record DaemonAdapters := mkDaemonAdapters {
  SendMessages : PublicKey -> list Message -> option GoError;
  BroadcastTransaction : MsgTx -> string -> option GoError;
  DisableChannel : OutPoint -> option GoError;
  RegisterConfirmationsNtfn : Hash -> list Byte.byte -> N -> N -> option GoError;
  RegisterSpendNtfn : OutPoint -> list Byte.byte -> N -> option GoError
}.

(** What executing a daemon event does: adapter calls, in order, and the
    goroutines it spawns. *)
Inductive DaemonCall (Event : Type) : Type :=
| CallSendMessages (pk : PublicKey) (msgs : list Message)
| CallDisableChannel (op : OutPoint)
| CallBroadcastTransaction (tx : MsgTx) (label : string)
| CallRegisterSpendNtfn (op : OutPoint) (pkScript : list Byte.byte) (heightHint : N)
| CallRegisterConfirmationsNtfn (txid : Hash) (pkScript : list Byte.byte)
    (numConfs heightHint : N)
| SpawnPostSend (ev : Event)
| SpawnSendWhenPoller (pk : PublicKey) (msgs : list Message) (post : option Event)
| SpawnSpendWaiter (post : option Event)
| SpawnConfWaiter (post : option Event).
Arguments CallSendMessages {Event}.
Arguments CallDisableChannel {Event}.
Arguments CallBroadcastTransaction {Event}.
Arguments CallRegisterSpendNtfn {Event}.
Arguments CallRegisterConfirmationsNtfn {Event}.
Arguments SpawnPostSend {Event}.
Arguments SpawnSendWhenPoller {Event}.
Arguments SpawnSpendWaiter {Event}.
Arguments SpawnConfWaiter {Event}.

(** The errors produced by the FSM runtime (the [fmt.Errorf] wrappers). *)
Inductive FsmError : Type :=
| ErrUnableToSendMsgs (e : GoError)
| ErrUnableToDisableChannel (e : GoError)
| ErrUnableToBroadcastTxn (e : GoError)
| ErrUnableToRegisterSpend (e : GoError)
| ErrUnableToRegisterConf (e : GoError)
| ErrUnknownDaemonEvent
| ErrTransition (e : GoError).

(** [fn.Option.UnwrapOr]. *)
Definition UnwrapOr {A} (o : option A) (dflt : A) : A :=
  match o with Some a => a | None => dflt end.

Section Execute.

Context {Event : Type}.
Variable ad : DaemonAdapters.

(** [StateMachine.executeDaemonEvent].  The Go type switch has no other
    case: an event of any other dynamic type also reaches the final
    [return fmt.Errorf("unknown daemon event: %T", event)], and so does the
    [RegisterConf] case, whose body ends without a [return]. *)
Definition executeDaemonEvent (d : DaemonEvent Event)
    : list (DaemonCall Event) * option FsmError :=
  match d with
  | SendMsgEvent pk msgs sendWhen post =>
      let sendAndCleanUp :=
        match SendMessages ad pk msgs with
        | Some err => ([CallSendMessages pk msgs], Some (ErrUnableToSendMsgs err))
        | None =>
            (CallSendMessages pk msgs ::
               match post with Some ev => [SpawnPostSend ev] | None => [] end,
             None)
        end in
      match sendWhen with
      | None => sendAndCleanUp
      | Some _ => ([SpawnSendWhenPoller pk msgs post], None)
      end
  | DisableChannelEvent op =>
      match DisableChannel ad op with
      | Some err => ([CallDisableChannel op], Some (ErrUnableToDisableChannel err))
      | None => ([CallDisableChannel op], None)
      end
  | BroadcastTxn tx label =>
      match BroadcastTransaction ad tx label with
      | Some err =>
          ([CallBroadcastTransaction tx label], Some (ErrUnableToBroadcastTxn err))
      | None => ([CallBroadcastTransaction tx label], None)
      end
  | RegisterSpend op pkScript hh post =>
      match RegisterSpendNtfn ad op pkScript hh with
      | Some err =>
          ([CallRegisterSpendNtfn op pkScript hh], Some (ErrUnableToRegisterSpend err))
      | None => ([CallRegisterSpendNtfn op pkScript hh; SpawnSpendWaiter post], None)
      end
  | RegisterConf txid pkScript hh numConfsOpt post =>
      let numConfs := UnwrapOr numConfsOpt 1%N in
      match RegisterConfirmationsNtfn ad txid pkScript numConfs hh with
      | Some err =>
          ([CallRegisterConfirmationsNtfn txid pkScript numConfs hh],
           Some (ErrUnableToRegisterConf err))
      | None =>
          ([CallRegisterConfirmationsNtfn txid pkScript numConfs hh;
            SpawnConfWaiter post],
           Some ErrUnknownDaemonEvent)
      end
  end.

(** The calls that go to a [DaemonAdapters] method (as opposed to spawned
    tasks). *)
Definition isAdapterCall (c : DaemonCall Event) : bool :=
  match c with
  | CallSendMessages _ _ | CallDisableChannel _ | CallBroadcastTransaction _ _
  | CallRegisterSpendNtfn _ _ _ | CallRegisterConfirmationsNtfn _ _ _ _ => true
  | _ => false
  end.

End Execute.

(** [fn.Option.IsSome]. *)
Definition IsSome {A} (o : option A) : bool :=
  match o with Some _ => true | None => false end.

Section Machine.

Context {State Event Env : Type} `{FsmState State Event Env}.
(** The configured daemon adapters and environment ([s.cfg.Daemon],
    [s.cfg.Env]); both are fixed for the lifetime of the machine. *)
Variable ad : DaemonAdapters.
Variable env : Env.

(** The internal event and the external events of a transition, each
    read through [fn.MapOptionZ] / [WhenSome] on the options. *)
Definition internals (t : StateTransition State Event) : list Event :=
  match NewEvents t with
  | Some em => match InternalEvent em with Some e => [e] | None => [] end
  | None => []
  end.

Definition externals (t : StateTransition State Event) : list (DaemonEvent Event) :=
  match NewEvents t with
  | Some em => UnwrapOr (ExternalEvents em) []
  | None => []
  end.

(** The observable steps of [applyEvents]: a call of [ProcessEvent] on the
    current state, one executed daemon event with its adapter calls, an
    [eventQueue.Enqueue], and a [NotifySubscribers] of the new state. *)
Inductive Action : Type :=
| AProcess (st : State) (ev : Event)
| AExec (d : DaemonEvent Event) (calls : list (DaemonCall Event))
| AEnqueue (ev : Event)
| ANotify (st : State).

(** The [for _, dEvent := range dEvents] loop: stops at the first error. *)
Fixpoint execAll (ds : list (DaemonEvent Event)) : list Action * option FsmError :=
  match ds with
  | [] => ([], None)
  | d :: ds' =>
      let (calls, r) := executeDaemonEvent ad d in
      match r with
      | Some err => ([AExec d calls], Some err)
      | None => let (acts, r') := execAll ds' in (AExec d calls :: acts, r')
      end
  end.

(** The dequeue loop of [applyEvents] on the FIFO [eventQueue] ([Dequeue]
    takes the head, [Enqueue] appends).  The loop need not terminate (a
    transition may keep emitting internal events), hence the fuel; [None]
    means the fuel ran out. *)
Fixpoint applyLoop (fuel : nat) (cur : State) (queue : list Event)
    : option (State * option FsmError * list Action) :=
  match queue with
  | [] => Some (cur, None, [])
  | ev :: q =>
      match fuel with
      | O => None
      | S f =>
          match ProcessEvent cur ev env with
          | inl e => Some (cur, Some (ErrTransition e), [AProcess cur ev])
          | inr t =>
              let (acts, r) := execAll (externals t) in
              match r with
              | Some err => Some (cur, Some err, AProcess cur ev :: acts)
              | None =>
                  match applyLoop f (NextState t) (q ++ internals t) with
                  | None => None
                  | Some (s', r', tr) =>
                      Some (s', r',
                            AProcess cur ev :: acts ++ map AEnqueue (internals t)
                              ++ ANotify (NextState t) :: tr)
                  end
              end
          end
      end
  end.

(** [StateMachine.applyEvents]: the queue starts with [newEvent]. *)
Definition applyEvents (fuel : nat) (cur : State) (newEvent : Event)
    : option (State * option FsmError * list Action) :=
  applyLoop fuel cur [newEvent].

(** The last committed state: the last one published, or the start state. *)
Fixpoint lastCommitted (s : State) (tr : list Action) : State :=
  match tr with
  | [] => s
  | ANotify s' :: tr' => lastCommitted s' tr'
  | _ :: tr' => lastCommitted s tr'
  end.

(** The case chosen by each iteration of the [select] of [driveMachine]. *)
Inductive DriverInput : Type :=
| InEvent (ev : Event)
| InQuery
| InQuit.

(** What the driver does: the init daemon event, the initial notification,
    a burst of [applyEvents], [ReportError], [go s.Stop()],
    [s.cfg.Env.CleanUp()], a reply to a state query, and [return]. *)
Inductive DriverAction : Type :=
| DInit (d : DaemonEvent Event) (calls : list (DaemonCall Event))
| DNotify (st : State)
| DBurst (acts : list Action)
| DReport (err : FsmError)
| DStopSpawned
| DCleanUp
| DReply (st : State)
| DExit.

(** One [case newEvent := <-s.events] iteration; [Some cur'] when the loop
    goes on with [cur'], [None] when the driver returns. *)
Definition driveEvent (fuel : nat) (cur : State) (ev : Event)
    : option (list DriverAction * option State) :=
  match applyEvents fuel cur ev with
  | None => None
  | Some (_, Some err, acts) =>
      Some ([DBurst acts; DReport err; DStopSpawned; DExit], None)
  | Some (newState, None, acts) =>
      Some (DBurst acts :: (if IsTerminal newState then [DCleanUp] else []),
            Some newState)
  end.

(** The [for { select ... }] loop over the scheduler's choices. *)
Fixpoint driveLoop (fuel : nat) (cur : State) (inputs : list DriverInput)
    : option (list DriverAction) :=
  match inputs with
  | [] => Some []
  | InEvent ev :: rest =>
      match driveEvent fuel cur ev with
      | None => None
      | Some (acts, None) => Some acts
      | Some (acts, Some cur') =>
          match driveLoop fuel cur' rest with
          | None => None
          | Some acts' => Some (acts ++ acts')
          end
      end
  | InQuery :: rest =>
      match driveLoop fuel cur rest with
      | None => None
      | Some acts' => Some (DReply cur :: acts')
      end
  | InQuit :: _ => Some [DExit]
  end.

(** [StateMachine.driveMachine]. *)
Definition driveMachine (fuel : nat) (initialState : State)
    (initEvent : option (DaemonEvent Event)) (inputs : list DriverInput)
    : option (list DriverAction) :=
  let start :=
    match initEvent with
    | None => ([], None)
    | Some d =>
        let (calls, r) := executeDaemonEvent ad d in ([DInit d calls], r)
    end in
  match snd start with
  | Some _ => Some (fst start ++ [DExit])
  | None =>
      match driveLoop fuel initialState inputs with
      | None => None
      | Some acts => Some (fst start ++ DNotify initialState :: acts)
      end
  end.

(** [MsgMapper]: [MapMsg(msg) fn.Option[Event]]. *)
Definition MsgMapper := Message -> option Event.

(** [StateMachine.CanHandle]: [fn.MapOptionZ] yields [false] on [None]. *)
Definition CanHandle (cfgMapper : option MsgMapper) (msg : Message) : bool :=
  match cfgMapper with
  | Some mapper => IsSome (mapper msg)
  | None => false
  end.

(** [StateMachine.SendMessage]: the result, and the events handed to
    [SendEvent]. *)
Definition SendMessage (cfgMapper : option MsgMapper) (msg : Message)
    : bool * list Event :=
  if negb (IsSome cfgMapper) then (false, [])
  else
    match cfgMapper with
    | Some mapper =>
        match mapper msg with
        | Some event => (true, [event])
        | None => (false, [])
        end
    | None => (false, [])
    end.

(** [CurrentState] against the driver, as an interleaving of the caller,
    the driver and [Stop()].  The query channel [s.stateQuery] is
    unbuffered; the reply channel is fresh with capacity 1.  Each side
    uses a [select] that may pick its quit case once [s.quit] is closed. *)
Inductive QueryOutcome : Type :=
| QState (s : State)
| QShuttingDown
| QTimeout.

Inductive DriverPhase : Type :=
| DLoop (cur : State)        (* blocked in the driver's select *)
| DReplying (cur : State)    (* in [fn.SendOrQuit(stateQuery.CurrentState, ...)] *)
| DExited.

Inductive CallerPhase : Type :=
| CSending                   (* in [fn.SendOrQuit(s.stateQuery, query, s.quit)] *)
| CWaiting                   (* in [fn.RecvOrTimeout(query.CurrentState, time.Second)] *)
| CDone (o : QueryOutcome).

Record QuerySys := mkQuerySys {
  drv : DriverPhase;
  quitClosed : bool;
  caller : CallerPhase;
  replyBuf : option State;
  (** ghost: the driver's state when it accepted the query *)
  accepted : option State
}.

Inductive qstep : QuerySys -> QuerySys -> Prop :=
| q_stop : forall d c r a,
    qstep (mkQuerySys d false c r a) (mkQuerySys d true c r a)
| q_event : forall fuel cur ev s' acts q c r a,
    applyEvents fuel cur ev = Some (s', None, acts) ->
    qstep (mkQuerySys (DLoop cur) q c r a) (mkQuerySys (DLoop s') q c r a)
| q_event_err : forall fuel cur ev s' err acts q c r a,
    applyEvents fuel cur ev = Some (s', Some err, acts) ->
    qstep (mkQuerySys (DLoop cur) q c r a) (mkQuerySys DExited q c r a)
| q_drv_quit : forall cur c r a,
    qstep (mkQuerySys (DLoop cur) true c r a) (mkQuerySys DExited true c r a)
| q_accept : forall cur q r a,
    qstep (mkQuerySys (DLoop cur) q CSending r a)
          (mkQuerySys (DReplying cur) q CWaiting r (Some cur))
| q_reply : forall cur q c a,
    qstep (mkQuerySys (DReplying cur) q c None a)
          (mkQuerySys (DLoop cur) q c (Some cur) a)
| q_reply_quit : forall cur c r a,
    qstep (mkQuerySys (DReplying cur) true c r a) (mkQuerySys DExited true c r a)
| q_caller_quit : forall d r a,
    qstep (mkQuerySys d true CSending r a) (mkQuerySys d true (CDone QShuttingDown) r a)
| q_recv : forall d q v a,
    qstep (mkQuerySys d q CWaiting (Some v) a)
          (mkQuerySys d q (CDone (QState v)) None a)
(** the one-second timer fires only when no reply can arrive any more *)
| q_timeout : forall d q a,
    (forall cur, d <> DReplying cur) ->
    qstep (mkQuerySys d q CWaiting None a) (mkQuerySys d q (CDone QTimeout) None a).

Inductive qreach : QuerySys -> QuerySys -> Prop :=
| qreach_refl : forall s, qreach s s
| qreach_step : forall s1 s2 s3, qstep s1 s2 -> qreach s2 s3 -> qreach s1 s3.

(** A query issued while the driver loops on [cur] ([Some cur]) or has
    already returned ([None]), with quit state [q]. *)
Definition queryStart (running : option State) (q : bool) : QuerySys :=
  mkQuerySys (match running with Some cur => DLoop cur | None => DExited end)
             q CSending None None.

(** The invariant of a pending query. *)
Definition QueryInv (sys : QuerySys) : Prop :=
  match caller sys with
  | CSending =>
      replyBuf sys = None /\ accepted sys = None /\
      (forall cur, drv sys <> DReplying cur)
  | CWaiting =>
      exists v, accepted sys = Some v /\
        ((drv sys = DReplying v /\ replyBuf sys = None) \/
         (replyBuf sys = Some v /\ (forall cur, drv sys <> DReplying cur)) \/
         (replyBuf sys = None /\ quitClosed sys = true /\ drv sys = DExited))
  | CDone o =>
      (exists v, o = QState v /\ accepted sys = Some v) \/
      (o = QShuttingDown /\ quitClosed sys = true /\ accepted sys = None) \/
      (o = QTimeout /\ quitClosed sys = true /\ accepted sys <> None)
  end.

(** A daemon event together with the adapter calls its execution makes. *)
Definition execAct (d : DaemonEvent Event) : Action :=
  AExec d (fst (executeDaemonEvent ad d)).

Definition isProcess (a : Action) : bool :=
  match a with AProcess _ _ => true | _ => false end.

Definition isNotify (a : Action) : bool :=
  match a with ANotify _ => true | _ => false end.

(** The events handed to [ProcessEvent], and those enqueued, in order. *)
Fixpoint processedEvents (tr : list Action) : list Event :=
  match tr with
  | [] => []
  | AProcess _ e :: tr' => e :: processedEvents tr'
  | _ :: tr' => processedEvents tr'
  end.

Fixpoint enqueuedEvents (tr : list Action) : list Event :=
  match tr with
  | [] => []
  | AEnqueue e :: tr' => e :: enqueuedEvents tr'
  | _ :: tr' => enqueuedEvents tr'
  end.

Definition countCleanUps (acts : list DriverAction) : nat :=
  List.length (filter (fun a => match a with DCleanUp => true | _ => false end) acts).

(** The last state published to subscribers along a driver trace. *)
Fixpoint lastPublished (s : State) (tr : list DriverAction) : State :=
  match tr with
  | [] => s
  | DNotify st :: tr' => lastPublished st tr'
  | DBurst acts :: tr' => lastPublished (lastCommitted s acts) tr'
  | _ :: tr' => lastPublished s tr'
  end.




Definition isReplyAct (a : DriverAction) : bool :=
  match a with DReply _ => true | _ => false end.

Definition isCleanUpAct (a : DriverAction) : bool :=
  match a with DCleanUp => true | _ => false end.

(** A query pending against a driver that has returned. *)
Definition ExitedQueryInv (sys : QuerySys) : Prop :=
  drv sys = DExited /\ accepted sys = None /\ replyBuf sys = None /\
  (caller sys = CSending \/
   (quitClosed sys = true /\ caller sys = CDone QShuttingDown)).

End Machine.

End Protofsm.

(* ------------------------------------------------------------------ *)
(** ** A concrete machine: a counter whose states from 1 on are terminal *)

Module ExampleFsm.
Import Protofsm.

#[export] Instance counterFsm : FsmState nat unit unit := {
  ProcessEvent := fun n _ _ => inr (mkStateTransition (S n) None);
  IsTerminal := fun n => (1 <=? n)%nat
}.

(** Adapters whose every call succeeds. *)
Definition okAdapters : DaemonAdapters :=
  mkDaemonAdapters (fun _ _ => None) (fun _ _ => None) (fun _ => None)
                   (fun _ _ _ _ => None) (fun _ _ _ => None).

(** A machine whose transitions on [true] emit two external effects and an
    internal [false] event, and whose state 5 rejects [false]. *)
Definition chanPoint0 : OutPoint := mkOutPoint [] 0.

Definition effectStep (n : nat) : StateTransition nat bool :=
  mkStateTransition (S n)
    (Some (mkEmittedEvent (Some false)
             (Some [DisableChannelEvent chanPoint0; BroadcastTxn [] "close"]))).

#[export] Instance effectFsm : FsmState nat bool unit := {
  ProcessEvent := fun n ev _ =>
    if ev then inr (effectStep n)
    else if Nat.eqb n 5 then inl 7%nat
    else inr (mkStateTransition (S n) None);
  IsTerminal := fun _ => false
}.

(** The burst of [applyEvents] on [true] from state 0. *)
Definition effectTrace : list (@Action nat bool) :=
  [AProcess 0%nat true;
   AExec (DisableChannelEvent chanPoint0) [CallDisableChannel chanPoint0];
   AExec (BroadcastTxn [] "close") [CallBroadcastTransaction [] "close"];
   AEnqueue false; ANotify 1%nat;
   AProcess 1%nat false; ANotify 2%nat].

(** Adapters whose every call fails, each with its own error code. *)
Definition failAdapters : DaemonAdapters :=
  mkDaemonAdapters (fun _ _ => Some 1%nat) (fun _ _ => Some 2%nat)
                   (fun _ => Some 3%nat) (fun _ _ _ _ => Some 4%nat)
                   (fun _ _ _ => Some 5%nat).

(** The burst of [applyEvents] on [true] from an even state [n]; when [S n]
    is 5 the internal [false] event fails and the burst stops there. *)
Definition effectBurst (n : nat) : list (@Action nat bool) :=
  [AProcess n true;
   AExec (DisableChannelEvent chanPoint0) [CallDisableChannel chanPoint0];
   AExec (BroadcastTxn [] "close") [CallBroadcastTransaction [] "close"];
   AEnqueue false; ANotify (S n); AProcess (S n) false] ++
  (if Nat.eqb (S n) 5 then [] else [ANotify (S (S n))]).


(** A run of the driver on [counterFsm]: two events around a state query. *)
Definition counterRun : list (@DriverAction nat unit) :=
  [DNotify 0%nat; DBurst [AProcess 0%nat tt; ANotify 1%nat]; DCleanUp;
   DReply 1%nat; DBurst [AProcess 1%nat tt; ANotify 2%nat]; DCleanUp].

End ExampleFsm.

(* ------------------------------------------------------------------ *)
(** ** Results on the RBF close states *)

Module ChancloserFacts.
Import Chancloser.

(** Claim C1 (as the code has it).  [IsTerminal] holds exactly for
    [ClosePending] and [CloseFin]: [ClosePending.IsTerminal] returns
    [true], although [ClosePending] still routes [SpendEvent] (its
    [ShouldRouteTo]) on the way to [CloseFin]. *)
Theorem IsTerminal_ClosePending :
  (forall s, IsTerminal s = true <-> s = ClosePending \/ s = CloseFin) /\
  IsTerminal ClosePending = true /\
  ShouldRouteTo APClosePending SpendEvent = true.
Proof.
  split; [|split; reflexivity].
  intros s; destruct s; simpl; intuition congruence.
Qed.

(** Claim C4 (as the code has it).  At a settled balance exactly equal to
    the dust limit of its script, [LocalAmtIsDust] (resp.
    [RemoteAmtIsDust]) is [false], yet [DeriveCloseTxOuts] returns a nil
    output for that side, whatever [DustLimitForSize] is. *)
Theorem DeriveCloseTxOuts_drops_output_at_dust_limit :
  forall (dust : Z -> Amount) (rb : MilliSatoshi) (ls rs : list Byte.byte),
    let cl := mkCloseChannelTerms
                (mkShutdownBalances (1000 * dust (Z.of_nat (List.length ls))) rb)
                (mkShutdownScripts ls rs) in
    let cr := mkCloseChannelTerms
                (mkShutdownBalances rb (1000 * dust (Z.of_nat (List.length rs))))
                (mkShutdownScripts ls rs) in
    LocalAmtIsDust dust cl = false /\ fst (DeriveCloseTxOuts dust cl) = None /\
    RemoteAmtIsDust dust cr = false /\ snd (DeriveCloseTxOuts dust cr) = None.
Proof.
  intros dust rb ls rs cl cr.
  subst cl cr; unfold LocalAmtIsDust, RemoteAmtIsDust, DeriveCloseTxOuts,
    deriveTxOut, ToSatoshis, mSatScale.
  cbn [Balances Scripts LocalBalance RemoteBalance LocalDeliveryScript
       RemoteDeliveryScript fst snd].
  rewrite !(Z.mul_comm 1000 (dust _)), !Z.div_mul by lia.
  rewrite !Z.ltb_irrefl; repeat split.
Qed.

(** Claim C9.  [LocalCanPayFees c fee] holds iff the local balance in
    satoshis is at least [fee]; symmetrically for the remote side. *)
Theorem CanPayFees_iff :
  forall (c : CloseChannelTerms) (absoluteFee : Amount),
    (LocalCanPayFees c absoluteFee = true <->
       ToSatoshis (LocalBalance (Balances c)) >= absoluteFee) /\
    (RemoteCanPayFees c absoluteFee = true <->
       ToSatoshis (RemoteBalance (Balances c)) >= absoluteFee).
Proof.
  intros c fee; unfold LocalCanPayFees, RemoteCanPayFees.
  rewrite !Z.leb_le; lia.
Qed.

(** Claim C10.  Inside [ClosingNegotiation], no protocol event is accepted
    both by a local sub-state ([LocalCloseStart], [LocalOfferSent]) and by
    the remote sub-state [RemoteCloseStart]; [LocalCloseStart] accepts only
    [SendOfferEvent], [LocalOfferSent] only [LocalSigReceived], and
    [RemoteCloseStart] only [OfferReceivedEvent]. *)
Theorem ShouldRouteTo_disjoint :
  forall ev : ProtocolEvent,
    (ShouldRouteTo APLocalCloseStart ev && ShouldRouteTo APRemoteCloseStart ev = false) /\
    (ShouldRouteTo APLocalOfferSent ev && ShouldRouteTo APRemoteCloseStart ev = false) /\
    (ShouldRouteTo APLocalCloseStart ev = true <-> ev = SendOfferEvent) /\
    (ShouldRouteTo APLocalOfferSent ev = true <-> ev = LocalSigReceived) /\
    (ShouldRouteTo APRemoteCloseStart ev = true <-> ev = OfferReceivedEvent).
Proof.
  intros ev; destruct ev; simpl; repeat split; congruence.
Qed.

End ChancloserFacts.

(* ------------------------------------------------------------------ *)
(** ** Results on the FSM runtime *)

Module ProtofsmFacts.
Import Protofsm ExampleFsm.

(** Claim C2 (as the code has it).  When the adapter registers the
    confirmation notification successfully, [executeDaemonEvent] on a
    [RegisterConf] effect registers it with [num_confs] defaulting to 1 and
    spawns the waiter, but then falls out of the type switch and returns
    the "unknown daemon event" error. *)
Theorem executeDaemonEvent_RegisterConf_unknown :
  forall (Event : Type) (ad : DaemonAdapters) (txid : Hash)
         (pkScript : list Byte.byte) (hh : N) (numConfs : option N)
         (post : option Event),
    RegisterConfirmationsNtfn ad txid pkScript (UnwrapOr numConfs 1%N) hh = None ->
    executeDaemonEvent ad (RegisterConf txid pkScript hh numConfs post) =
      ([CallRegisterConfirmationsNtfn txid pkScript (UnwrapOr numConfs 1%N) hh;
        SpawnConfWaiter post],
       Some ErrUnknownDaemonEvent).
Proof.
  intros Event ad txid pkScript hh numConfs post Hreg.
  simpl; rewrite Hreg; reflexivity.
Qed.

Lemma executeDaemonEvent_RegisterConf_unknown_witness :
  RegisterConfirmationsNtfn ExampleFsm.okAdapters [] [] 1%N 100%N = None /\
  executeDaemonEvent (Event := unit) ExampleFsm.okAdapters
      (RegisterConf [] [] 100%N None None) =
    ([CallRegisterConfirmationsNtfn [] [] 1%N 100%N; SpawnConfWaiter None],
     Some ErrUnknownDaemonEvent).
Proof.
  split; [reflexivity|].
  apply (executeDaemonEvent_RegisterConf_unknown unit ExampleFsm.okAdapters
           [] [] 100%N None None).
  reflexivity.
Defined.

(** Claim C7.  For every wire message and every configured mapper,
    [CanHandle] returns what [SendMessage] returns; without a mapper both
    return [false]. *)
Theorem CanHandle_iff_SendMessage :
  forall (Event : Type) (cfgMapper : option (@MsgMapper Event)) (msg : Message),
    CanHandle cfgMapper msg = fst (SendMessage cfgMapper msg) /\
    CanHandle (@None (@MsgMapper Event)) msg = false /\
    fst (SendMessage (@None (@MsgMapper Event)) msg) = false.
Proof.
  intros Event [mapper|] msg; unfold CanHandle, SendMessage; simpl;
    [destruct (mapper msg)|]; repeat split.
Qed.

(** Claim C3 (as the code has it).  On the counter machine, two events
    that each lead to a terminal state make the driver call [CleanUp]
    twice: after the first terminal state it neither returns nor stops. *)
Theorem driveMachine_cleanup_twice :
  driveMachine ExampleFsm.okAdapters tt 10 0%nat None [InEvent tt; InEvent tt] =
    Some [DNotify 0%nat;
          DBurst [AProcess 0%nat tt; ANotify 1%nat]; DCleanUp;
          DBurst [AProcess 1%nat tt; ANotify 2%nat]; DCleanUp] /\
  countCleanUps [DNotify 0%nat;
          DBurst [AProcess 0%nat tt; ANotify 1%nat]; DCleanUp;
          DBurst [AProcess 1%nat tt; ANotify 2%nat]; DCleanUp] = 2%nat.
Proof. split; reflexivity. Qed.

Section Runtime.

Context {State Event Env : Type} `{FsmState State Event Env}.
Variable ad : DaemonAdapters.
Variable env : Env.

Lemma execAll_spec :
  forall ds acts r,
    @execAll State Event ad ds = (acts, r) ->
    exists k, (k <= List.length ds)%nat /\
      acts = map (@execAct State Event ad) (firstn k ds) /\
      (r = None -> k = List.length ds).
Proof.
  induction ds as [|d ds IH]; intros acts r Hex; simpl in Hex.
  - inversion Hex; subst. exists 0%nat; simpl; repeat split; auto.
  - destruct (executeDaemonEvent ad d) as [calls r0] eqn:Hd.
    destruct r0 as [err|].
    + inversion Hex; subst. exists 1%nat; simpl; repeat split; try lia.
      * unfold execAct; rewrite Hd; reflexivity.
      * discriminate.
    + destruct (@execAll State Event ad ds) as [acts' r'] eqn:Hds.
      inversion Hex; subst.
      destruct (IH _ _ eq_refl) as (k & Hk & Hacts & Hr).
      exists (S k); simpl; repeat split; try lia.
      * unfold execAct at 1; rewrite Hd, Hacts; reflexivity.
      * intros ->; rewrite Hr; reflexivity.
Qed.

Lemma map_execAct_no_process :
  forall l a, In a (map (@execAct State Event ad) l) -> isProcess a = false /\ isNotify a = false.
Proof.
  intros l a Hin; apply in_map_iff in Hin as (d & <- & _); split; reflexivity.
Qed.

Lemma map_execAct_events :
  forall l, processedEvents (map (@execAct State Event ad) l) = [] /\
            enqueuedEvents (map (@execAct State Event ad) l) = [].
Proof. induction l as [|d l IH]; simpl; auto. Qed.

Lemma processedEvents_app :
  forall l1 l2 : list (@Action State Event), processedEvents (l1 ++ l2) = processedEvents l1 ++ processedEvents l2.
Proof. induction l1 as [|a l1 IH]; intros l2; [reflexivity|destruct a; simpl; rewrite IH; reflexivity]. Qed.

Lemma enqueuedEvents_app :
  forall l1 l2 : list (@Action State Event), enqueuedEvents (l1 ++ l2) = enqueuedEvents l1 ++ enqueuedEvents l2.
Proof. induction l1 as [|a l1 IH]; intros l2; [reflexivity|destruct a; simpl; rewrite IH; reflexivity]. Qed.

Lemma map_AEnqueue_events :
  forall l : list Event, processedEvents (map (@AEnqueue State Event) l) = [] /\
            enqueuedEvents (map (@AEnqueue State Event) l) = l.
Proof. induction l as [|e l IH]; simpl; [auto|destruct IH as [-> ->]; auto]. Qed.

Lemma lastCommitted_app :
  forall (s : State) (l1 l2 : list (@Action State Event)), lastCommitted s (l1 ++ l2) = lastCommitted (lastCommitted s l1) l2.
Proof. intros s l1; revert s; induction l1 as [|a l1 IH]; intros s l2; [reflexivity|destruct a; simpl; apply IH]. Qed.

Lemma lastCommitted_no_notify :
  forall (s : State) (l : list (@Action State Event)),
    (forall a, In a l -> isNotify a = false) -> lastCommitted s l = s.
Proof.
  intros s l; induction l as [|a l IH]; intros Hl; [reflexivity|].
  destruct a; simpl; try (apply IH; intros b Hb; apply Hl; right; exact Hb).
  specialize (Hl (ANotify st) (or_introl eq_refl)); discriminate.
Qed.

(** Splitting a trace at an [AProcess] that lies beyond a prefix without
    any [AProcess]. *)
Lemma split_after_no_process :
  forall (L tr pre post : list (@Action State Event)) (x : @Action State Event),
    (forall a, In a L -> isProcess a = false) -> isProcess x = true ->
    L ++ tr = pre ++ x :: post ->
    exists pre', pre = L ++ pre' /\ tr = pre' ++ x :: post.
Proof.
  induction L as [|b L IH]; intros tr pre post x HL Hx Heq.
  - exists pre; auto.
  - destruct pre as [|c pre]; simpl in Heq; inversion Heq; subst.
    + rewrite (HL x (or_introl eq_refl)) in Hx; discriminate.
    + destruct (IH tr pre post x) as (pre' & -> & ->); auto.
      * intros a Ha; apply HL; right; exact Ha.
      * exists pre'; auto.
Qed.

(** The shape of the block of the trace that starts at any [AProcess]. *)
Lemma applyLoop_block :
  forall fuel cur q s' r tr pre st e post,
    applyLoop ad env fuel cur q = Some (s', r, tr) ->
    tr = pre ++ AProcess st e :: post ->
    st = lastCommitted cur pre /\
    match ProcessEvent st e env with
    | inl g => post = [] /\ s' = st /\ r = Some (ErrTransition g)
    | inr t =>
        let (acts, er) := @execAll State Event ad (externals t) in
        match er with
        | Some err => post = acts /\ s' = st /\ r = Some err
        | None => exists rest,
            post = acts ++ map (@AEnqueue State Event) (internals t) ++ ANotify (NextState t) :: rest
        end
    end.
Proof.
  induction fuel as [|f IH]; intros cur q s' r tr pre st e post Hrun Htr; subst tr.
  - destruct q; simpl in Hrun; [|discriminate].
    injection Hrun as _ _ Heq; destruct pre; discriminate.
  - destruct q as [|ev0 q0]; simpl in Hrun.
    { injection Hrun as _ _ Heq; destruct pre; discriminate. }
    destruct (ProcessEvent cur ev0 env) as [g|t] eqn:HP.
    + injection Hrun as <- <- Heq.
      destruct pre as [|x [|y pre]]; simpl in Heq.
      * injection Heq as <- <- <-.
        split; [reflexivity|]; rewrite HP; auto.
      * injection Heq as _ Hrest; discriminate.
      * injection Heq as _ Hrest; discriminate.
    + destruct (@execAll State Event ad (externals t)) as [acts er] eqn:HE.
      destruct (execAll_spec _ _ _ HE) as (k & _ & Hacts & _).
      destruct er as [err|].
      * injection Hrun as <- <- Heq.
        destruct pre as [|x pre]; simpl in Heq.
        -- injection Heq as <- <- <-.
           split; [reflexivity|]; rewrite HP, HE; auto.
        -- injection Heq as Hx Hrest.
           exfalso.
           assert (Hin : In (AProcess st e) acts).
           { rewrite Hrest; apply in_or_app; right; left; reflexivity. }
           rewrite Hacts in Hin.
           apply map_execAct_no_process in Hin as [Hin _]; discriminate.
      * destruct (applyLoop ad env f (NextState t) (q0 ++ internals t))
          as [[[s1 r1] tr1]|] eqn:HL; [|discriminate].
        injection Hrun as <- <- Heq.
        destruct pre as [|x pre]; simpl in Heq.
        -- injection Heq as <- <- <-.
           split; [reflexivity|]; rewrite HP, HE; eauto.
        -- injection Heq as Hx Hrest; subst x.
           assert (Hsplit : (acts ++ map (@AEnqueue State Event) (internals t)
                               ++ [ANotify (NextState t)]) ++ tr1
                            = pre ++ AProcess st e :: post)
             by (rewrite <- Hrest, <- !app_assoc; reflexivity).
           rewrite Hacts in Hsplit.
           assert (HnoP : forall a,
                     In a (map (@execAct State Event ad) (firstn k (externals t)) ++
                           map (@AEnqueue State Event) (internals t) ++
                           [ANotify (NextState t)]) ->
                     isProcess a = false).
           { intros a Ha; rewrite !in_app_iff in Ha.
             destruct Ha as [Ha|[Ha|[Ha|[]]]].
             - apply map_execAct_no_process in Ha as [-> _]; reflexivity.
             - apply in_map_iff in Ha as (x & <- & _); reflexivity.
             - subst a; reflexivity. }
           destruct (split_after_no_process _ tr1 pre post (AProcess st e) HnoP
                       eq_refl Hsplit) as (pre' & -> & Htr1).
           destruct (IH _ _ _ _ _ _ _ _ _ HL Htr1) as [Hst Hblock].
           split; [|exact Hblock].
           simpl; rewrite !lastCommitted_app; cbn [lastCommitted].
           exact Hst.
Qed.

Lemma applyLoop_fifo :
  forall fuel cur q s' r tr,
    applyLoop ad env fuel cur q = Some (s', r, tr) ->
    exists suf, q ++ enqueuedEvents tr = processedEvents tr ++ suf /\
                (r = None -> suf = []).
Proof.
  induction fuel as [|f IH]; intros cur q s' r tr Hrun.
  - destruct q; simpl in Hrun; [|discriminate].
    injection Hrun as _ _ <-. exists []; auto.
  - destruct q as [|ev0 q0]; simpl in Hrun.
    { injection Hrun as _ _ <-. exists []; auto. }
    destruct (ProcessEvent cur ev0 env) as [g|t] eqn:HP.
    + injection Hrun as _ <- <-. exists q0; split; [|discriminate].
      simpl; rewrite app_nil_r; reflexivity.
    + destruct (@execAll State Event ad (externals t)) as [acts er] eqn:HE.
      destruct (execAll_spec _ _ _ HE) as (k & _ & Hacts & _).
      destruct (map_execAct_events (firstn k (externals t))) as [Hp He].
      rewrite <- Hacts in Hp, He.
      destruct er as [err|].
      * injection Hrun as _ <- <-. exists q0; split; [|discriminate].
        simpl; rewrite Hp, He, app_nil_r; reflexivity.
      * destruct (applyLoop ad env f (NextState t) (q0 ++ internals t))
          as [[[s1 r1] tr1]|] eqn:HL; [|discriminate].
        injection Hrun as _ <- <-.
        destruct (IH _ _ _ _ _ HL) as (suf & Hsuf & Hr).
        exists suf; split; [|exact Hr].
        destruct (map_AEnqueue_events (internals t)) as [Hp' He'].
        simpl; rewrite !processedEvents_app, !enqueuedEvents_app, Hp, He, Hp', He'.
        simpl; rewrite <- Hsuf, <- app_assoc; reflexivity.
Qed.

(** Claim C5.  Within [applyEvents], take any transition: the state [st]
    processes [e] and returns [t].  Right after [AProcess st e] the trace
    holds the execution of the external effects of [t], in emission order
    (the first [k] of them); either all of them ran, and only then is the
    internal event of [t] enqueued and the new state published, or one
    failed and the burst ends there.  Moreover the events are processed in
    FIFO order: the processed events are a prefix of the input event
    followed by the enqueued internal events, the whole of it when the
    burst ends without error. *)
Theorem applyEvents_effects_before_next_event :
  forall fuel cur ev s' r tr pre st e post t,
    applyEvents ad env fuel cur ev = Some (s', r, tr) ->
    tr = pre ++ AProcess st e :: post ->
    ProcessEvent st e env = inr t ->
    (exists k rest,
        (k <= List.length (externals t))%nat /\
        post = map (@execAct State Event ad) (firstn k (externals t)) ++ rest /\
        ((k = List.length (externals t) /\
          exists rest', rest = map (@AEnqueue State Event) (internals t)
                                 ++ ANotify (NextState t) :: rest') \/
         (rest = [] /\ r <> None))) /\
    (exists suf, ev :: enqueuedEvents tr = processedEvents tr ++ suf /\
                 (r = None -> suf = [])).
Proof.
  intros fuel cur ev s' r tr pre st e post t Hrun Htr HP.
  split; [|exact (applyLoop_fifo _ _ _ _ _ _ Hrun)].
  destruct (applyLoop_block _ _ _ _ _ _ _ _ _ _ Hrun Htr) as [_ Hblock].
  rewrite HP in Hblock.
  destruct (@execAll State Event ad (externals t)) as [acts er] eqn:HE.
  destruct (execAll_spec _ _ _ HE) as (k & Hk & Hacts & Hall).
  destruct er as [err|].
  - destruct Hblock as (-> & _ & ->).
    exists k, []; rewrite app_nil_r; repeat split; auto.
    right; split; [reflexivity|discriminate].
  - destruct Hblock as (rest & ->).
    exists k, (map (@AEnqueue State Event) (internals t) ++ ANotify (NextState t) :: rest).
    rewrite Hacts; repeat split; auto.
    left; split; [apply Hall; reflexivity|eauto].
Qed.

(** Claim C6.  When, inside a burst, the state [st] (the last committed
    state) fails to process [e], or one of the effects of its transition
    fails, [applyEvents] stops right there and returns [st], the last
    committed state, with that error; the driver then reports the error,
    spawns [Stop()] and returns. *)
Theorem applyEvents_error_aborts :
  forall fuel cur ev s' r tr pre st e post,
    applyEvents ad env fuel cur ev = Some (s', r, tr) ->
    tr = pre ++ AProcess st e :: post ->
    st = lastCommitted cur pre /\
    (forall g, ProcessEvent st e env = inl g ->
       post = [] /\ s' = st /\ s' = lastCommitted cur tr /\
       r = Some (ErrTransition g)) /\
    (forall t acts err, ProcessEvent st e env = inr t ->
       @execAll State Event ad (externals t) = (acts, Some err) ->
       post = acts /\ s' = st /\ s' = lastCommitted cur tr /\ r = Some err) /\
    (forall err, r = Some err ->
       driveEvent ad env fuel cur ev =
         Some ([DBurst tr; DReport err; DStopSpawned; DExit], None)).
Proof.
  intros fuel cur ev s' r tr pre st e post Hrun Htr.
  destruct (applyLoop_block _ _ _ _ _ _ _ _ _ _ Hrun Htr) as [Hst Hblock].
  split; [exact Hst|]; split; [|split].
  - intros g HP; rewrite HP in Hblock.
    destruct Hblock as (-> & -> & ->); repeat split.
    rewrite Htr, lastCommitted_app; simpl; exact Hst.
  - intros t acts err HP HE; rewrite HP, HE in Hblock.
    destruct Hblock as (-> & -> & ->); repeat split.
    destruct (execAll_spec _ _ _ HE) as (k & _ & Hacts & _).
    rewrite Htr, lastCommitted_app; simpl.
    rewrite lastCommitted_no_notify; [exact Hst|].
    rewrite Hacts; intros a Ha; apply (map_execAct_no_process _ _ Ha).
  - intros err ->; unfold driveEvent; rewrite Hrun; reflexivity.
Qed.

Lemma qstep_inv :
  forall s1 s2, qstep ad env s1 s2 -> QueryInv s1 -> QueryInv s2.
Proof.
  intros s1 s2 Hs; destruct Hs; unfold QueryInv; simpl;
    try destruct c as [| |o]; simpl; intros Hi.
  all: try (firstorder (try congruence); fail).
  (* q_accept: the fresh reply channel is still empty *)
  destruct Hi as (-> & _ & _); exists cur; auto.
Qed.

Lemma qreach_inv :
  forall s1 s2, qreach ad env s1 s2 -> QueryInv s1 -> QueryInv s2.
Proof.
  intros s1 s2 Hr; induction Hr as [s|s1 s2 s3 Hs Hr IH]; intros Hi;
    [exact Hi|apply IH; exact (qstep_inv _ _ Hs Hi)].
Qed.

Lemma queryStart_inv :
  forall (running : option State) q, QueryInv (queryStart running q).
Proof.
  intros [cur|] q; unfold QueryInv; simpl; repeat split; discriminate.
Qed.

(** Claim C8 (amended).  Whatever the interleaving of the caller of
    [CurrentState], the driver and [Stop()], a finished query returned
    either the state the driver held (its last committed state) when it
    accepted the query, or the shutting-down error, when quit had fired and
    the query was never accepted, or the timeout error of
    [fn.RecvOrTimeout], when quit fired after the driver accepted the query
    and the driver returned without replying. *)
Theorem CurrentState_outcomes :
  forall (running : option State) (q0 : bool) (sys : QuerySys) (o : QueryOutcome),
    qreach ad env (queryStart running q0) sys ->
    caller sys = CDone o ->
    (exists v, o = QState v /\ accepted sys = Some v) \/
    (o = QShuttingDown /\ quitClosed sys = true /\ accepted sys = None) \/
    (o = QTimeout /\ quitClosed sys = true /\ accepted sys <> None).
Proof.
  intros running q0 sys o Hr Hc.
  pose proof (qreach_inv _ _ Hr (queryStart_inv running q0)) as Hi.
  unfold QueryInv in Hi; rewrite Hc in Hi; exact Hi.
Qed.

End Runtime.

Lemma applyEvents_effects_before_next_event_witness :
  applyEvents okAdapters tt 5 0%nat true = Some (2%nat, None, effectTrace) /\
  ((exists k rest,
      (k <= List.length (externals (effectStep 0)))%nat /\
      tl effectTrace =
        map (execAct okAdapters) (firstn k (externals (effectStep 0))) ++ rest /\
      ((k = List.length (externals (effectStep 0)) /\
        exists rest', rest = map AEnqueue (internals (effectStep 0))
                               ++ ANotify (NextState (effectStep 0)) :: rest') \/
       (rest = [] /\ @None FsmError <> None))) /\
   (exists suf, true :: enqueuedEvents effectTrace = processedEvents effectTrace ++ suf /\
                (@None FsmError = None -> suf = []))).
Proof.
  split; [reflexivity|].
  apply (applyEvents_effects_before_next_event okAdapters tt 5 0%nat true 2%nat None
           effectTrace [] 0%nat true (tl effectTrace) (effectStep 0));
    reflexivity.
Defined.

Lemma applyEvents_error_aborts_witness :
  applyEvents okAdapters tt 5 5%nat false =
    Some (5%nat, Some (ErrTransition 7%nat), [AProcess 5%nat false]) /\
  (5%nat = lastCommitted (Event := bool) 5%nat [] /\
   (forall g, ProcessEvent 5%nat false tt = inl g ->
      @nil (@Action nat bool) = [] /\ 5%nat = 5%nat /\
      5%nat = lastCommitted 5%nat [AProcess 5%nat false] /\
      Some (ErrTransition 7%nat) = Some (ErrTransition g)) /\
   (forall t acts err, ProcessEvent 5%nat false tt = inr t ->
      @execAll nat bool okAdapters (externals t) = (acts, Some err) ->
      [] = acts /\ 5%nat = 5%nat /\
      5%nat = lastCommitted 5%nat [AProcess 5%nat false] /\
      Some (ErrTransition 7%nat) = Some err) /\
   (forall err, Some (ErrTransition 7%nat) = Some err ->
      driveEvent okAdapters tt 5 5%nat false =
        Some ([DBurst [AProcess 5%nat false]; DReport err; DStopSpawned; DExit], None))).
Proof.
  split; [reflexivity|].
  apply (applyEvents_error_aborts okAdapters tt 5 5%nat false 5%nat
           (Some (ErrTransition 7%nat)) [AProcess 5%nat false] [] 5%nat false []);
    reflexivity.
Defined.

Lemma CurrentState_outcomes_witness :
  qreach (Event := unit) okAdapters tt (queryStart (Some 0%nat) false)
    (mkQuerySys (DLoop 0%nat) false (CDone (QState 0%nat)) None (Some 0%nat)) /\
  ((exists v, QState 0%nat = QState v /\ Some 0%nat = Some v) \/
   (QState 0%nat = QShuttingDown /\ false = true /\ @Some nat 0%nat = None) \/
   (QState 0%nat = QTimeout /\ false = true /\ @Some nat 0%nat <> None)).
Proof.
  assert (Hr : qreach (Event := unit) okAdapters tt (queryStart (Some 0%nat) false)
    (mkQuerySys (DLoop 0%nat) false (CDone (QState 0%nat)) None (Some 0%nat))).
  { eapply qreach_step; [apply q_accept|].
    eapply qreach_step; [apply q_reply|].
    eapply qreach_step; [apply q_recv|].
    apply qreach_refl. }
  split; [exact Hr|].
  exact (CurrentState_outcomes okAdapters tt (Some 0%nat) false _ (QState 0%nat) Hr eq_refl).
Defined.

(** Claim C8 (as stated) fails: the driver accepts the query, quit fires,
    the driver's [SendOrQuit] picks the quit case and returns without a
    reply, and the caller gets the timeout error, neither a state nor the
    shutting-down error. *)
Lemma CurrentState_timeout_counterexample :
  qreach (Event := unit) okAdapters tt (queryStart (Some 0%nat) false)
    (mkQuerySys DExited true (CDone QTimeout) None (Some 0%nat)) /\
  ~ (forall (sys : QuerySys) (o : QueryOutcome),
       qreach (Event := unit) okAdapters tt (queryStart (Some 0%nat) false) sys ->
       caller sys = CDone o ->
       (exists v, o = QState v /\ accepted sys = Some v) \/ o = QShuttingDown).
Proof.
  assert (Hr : qreach (Event := unit) okAdapters tt (queryStart (Some 0%nat) false)
    (mkQuerySys DExited true (CDone QTimeout) None (Some 0%nat))).
  { eapply qreach_step; [apply q_accept|].
    eapply qreach_step; [apply q_stop|].
    eapply qreach_step; [apply q_reply_quit|].
    eapply qreach_step; [apply q_timeout; discriminate|].
    apply qreach_refl. }
  split; [exact Hr|].
  intros Hclaim.
  destruct (Hclaim _ QTimeout Hr eq_refl) as [(v & Hv & _)|Hv]; discriminate.
Qed.

End ProtofsmFacts.

(* ------------------------------------------------------------------ *)
(** ** Further properties of the chancloser helpers *)

Module ChancloserExtra.
Import Chancloser.



(** A side that [LocalAmtIsDust] / [RemoteAmtIsDust] reports as dust gets
    no output from [DeriveCloseTxOuts]. *)
Theorem AmtIsDust_no_output (dust : Z -> Amount) (c : CloseChannelTerms) :
  (LocalAmtIsDust dust c = true -> fst (DeriveCloseTxOuts dust c) = None) /\
  (RemoteAmtIsDust dust c = true -> snd (DeriveCloseTxOuts dust c) = None).
Proof.
  unfold LocalAmtIsDust, RemoteAmtIsDust, DeriveCloseTxOuts, deriveTxOut; cbn [fst snd].
  split; intros Hd; apply Z.ltb_lt in Hd;
    match goal with |- (if ?b then _ else _) = None =>
      destruct b eqn:Hb; [apply Z.ltb_lt in Hb; lia | reflexivity] end.
Qed.

(** [LocalCanPayFees] / [RemoteCanPayFees] hold exactly when the
    millisatoshi balance covers 1000 times the fee: the fractional satoshi
    of the balance never counts towards the fee. *)
Theorem CanPayFees_msat (c : CloseChannelTerms) (fee : Amount) :
  (LocalCanPayFees c fee = true <-> mSatScale * fee <= LocalBalance (Balances c)) /\
  (RemoteCanPayFees c fee = true <-> mSatScale * fee <= RemoteBalance (Balances c)).
Proof.
  unfold LocalCanPayFees, RemoteCanPayFees, ToSatoshis, mSatScale.
  split; rewrite Z.leb_le; split; intros Hle.
  - pose proof (Z.mul_div_le (LocalBalance (Balances c)) 1000 ltac:(lia)); nia.
  - apply Z.div_le_lower_bound; lia.
  - pose proof (Z.mul_div_le (RemoteBalance (Balances c)) 1000 ltac:(lia)); nia.
  - apply Z.div_le_lower_bound; lia.
Qed.

(** [SpendMapper] keeps the spending transaction; its [uint32] conversion
    keeps every non-negative int32 height and maps a negative one [h] to
    [h + 2^32]. *)
Theorem SpendMapper_height (sd : SpendDetail)
    (Hrange : - 2 ^ 31 <= SpendingHeight sd < 2 ^ 31) :
  SpendTx (SpendMapper sd) = SpendingTx sd /\
  BlockHeight (SpendMapper sd) =
    (if 0 <=? SpendingHeight sd then SpendingHeight sd
     else SpendingHeight sd + 2 ^ 32).
Proof.
  unfold SpendMapper, toUint32; cbn [SpendTx BlockHeight]; split; [reflexivity |].
  destruct (Z.leb_spec 0 (SpendingHeight sd)).
  - apply Z.mod_small; lia.
  - rewrite <- (Z.mod_small (SpendingHeight sd + 2 ^ 32) (2 ^ 32)) by lia.
    replace (SpendingHeight sd + 2 ^ 32) with (SpendingHeight sd + 1 * 2 ^ 32) by ring.
    rewrite Z.mod_add by lia; reflexivity.
Qed.

Lemma SpendMapper_height_witness :
  (- 2 ^ 31 <= SpendingHeight (mkSpendDetail [] (-1)) < 2 ^ 31) /\
  SpendTx (SpendMapper (mkSpendDetail [] (-1))) = [] /\
  BlockHeight (SpendMapper (mkSpendDetail [] (-1))) = -1 + 2 ^ 32.
Proof.
  assert (Hr : - 2 ^ 31 <= SpendingHeight (mkSpendDetail [] (-1)) < 2 ^ 31)
    by (cbn; lia).
  split; [exact Hr|].
  exact (SpendMapper_height (mkSpendDetail [] (-1)) Hr).
Defined.

End ChancloserExtra.

(* ------------------------------------------------------------------ *)
(** ** Further properties of the protofsm runtime *)

Module ProtofsmExtra.
Import Protofsm ExampleFsm.

Section Daemon.

Context {Event : Type}.
Variable ad : DaemonAdapters.

(** [executeDaemonEvent] makes at most one call to the daemon adapters. *)
Theorem executeDaemonEvent_one_adapter_call (d : DaemonEvent Event) :
  (List.length (filter isAdapterCall (fst (executeDaemonEvent ad d))) <= 1)%nat.
Proof.
  destruct d; cbn;
    repeat match goal with |- context [match ?x with _ => _ end] => destruct x end;
    cbn; lia.
Qed.

(** When [executeDaemonEvent] fails with an adapter error, the failed
    adapter call is all it did: no goroutine was spawned. *)
Theorem executeDaemonEvent_failure_no_spawn (d : DaemonEvent Event) (err : FsmError)
    (Herr : snd (executeDaemonEvent ad d) = Some err)
    (Hknown : err <> ErrUnknownDaemonEvent) :
  exists c, fst (executeDaemonEvent ad d) = [c] /\ isAdapterCall c = true.
Proof.
  revert Herr; destruct d; cbn;
    repeat match goal with |- context [match ?x with _ => _ end] => destruct x end;
    cbn; intros Herr; try discriminate;
    try (injection Herr as <-; congruence);
    eexists; split; reflexivity.
Qed.


End Daemon.

Section Runtime.

Context {State Event Env : Type} `{FsmState State Event Env}.
Variable ad : DaemonAdapters.
Variable env : Env.

Lemma execAll_no_step :
  forall ds acts r, @execAll State Event ad ds = (acts, r) ->
  forall a, In a acts -> isProcess a = false /\ isNotify a = false.
Proof.
  induction ds as [|d ds IH]; intros acts r Hex a Ha; simpl in Hex.
  - injection Hex as <- _; destruct Ha.
  - destruct (executeDaemonEvent ad d) as [calls r0].
    destruct r0 as [err|].
    + injection Hex as <- _; destruct Ha as [<-|[]]; auto.
    + destruct (@execAll State Event ad ds) as [acts' r'] eqn:E.
      injection Hex as <- _; destruct Ha as [<-|Ha]; [auto | exact (IH _ _ eq_refl a Ha)].
Qed.

Lemma lastCommitted_skip :
  forall (L l : list (@Action State Event)) s,
    (forall a, In a L -> isNotify a = false) ->
    lastCommitted s (L ++ l) = lastCommitted s l.
Proof.
  induction L as [|b L IH]; intros l s HL; [reflexivity|].
  destruct b; simpl;
    try (apply IH; intros a Ha; apply HL; right; exact Ha).
  specialize (HL _ (or_introl eq_refl)); discriminate.
Qed.

Lemma filter_none {A} (p : A -> bool) (L : list A) :
  (forall a, In a L -> p a = false) -> filter p L = [].
Proof.
  induction L as [|b L IH]; intros HL; [reflexivity|].
  simpl; rewrite (HL b (or_introl eq_refl)); apply IH.
  intros a Ha; apply HL; right; exact Ha.
Qed.

Lemma applyLoop_counts :
  forall fuel cur q s' r tr,
    applyLoop ad env fuel cur q = Some (s', r, tr) ->
    s' = lastCommitted cur tr /\
    List.length (filter isProcess tr) =
      (List.length (filter isNotify tr) + match r with None => 0 | Some _ => 1 end)%nat.
Proof.
  induction fuel as [|f IH]; intros cur q s' r tr Hl;
    destruct q as [|ev q]; simpl in Hl; try discriminate.
  - injection Hl as <- <- <-; split; reflexivity.
  - injection Hl as <- <- <-; split; reflexivity.
  - destruct (ProcessEvent cur ev env) as [g|t].
    + injection Hl as <- <- <-; split; reflexivity.
    + destruct (@execAll State Event ad (externals t)) as [acts r0] eqn:Hex.
      pose proof (execAll_no_step _ _ _ Hex) as Hq.
      assert (HP : filter isProcess acts = []) by
        (apply filter_none; intros a Ha; apply (Hq a Ha)).
      assert (HN : filter isNotify acts = []) by
        (apply filter_none; intros a Ha; apply (Hq a Ha)).
      assert (HmP : filter isProcess (map (@AEnqueue State Event) (internals t)) = [])
        by (apply filter_none; intros a Ha; apply in_map_iff in Ha;
            destruct Ha as (e & <- & _); reflexivity).
      assert (HmN : filter isNotify (map (@AEnqueue State Event) (internals t)) = [])
        by (apply filter_none; intros a Ha; apply in_map_iff in Ha;
            destruct Ha as (e & <- & _); reflexivity).
      destruct r0 as [err|].
      * injection Hl as <- <- <-; simpl.
        rewrite HP, HN; split; [| reflexivity].
        symmetry; rewrite <- (app_nil_r acts); apply lastCommitted_skip.
        intros a Ha; apply (Hq a Ha).
      * destruct (applyLoop ad env f (NextState t) (q ++ internals t))
          as [[[s'' r'] tr']|] eqn:Hrec; [|discriminate].
        injection Hl as <- <- <-.
        destruct (IH _ _ _ _ _ Hrec) as [Hs Hc].
        split.
        -- simpl; rewrite app_assoc, lastCommitted_skip; [exact Hs|].
           intros a Ha; apply in_app_or in Ha; destruct Ha as [Ha|Ha];
             [apply (Hq a Ha) | apply in_map_iff in Ha; destruct Ha as (e & <- & _);
                                reflexivity].
        -- simpl; rewrite !filter_app, HP, HN, HmP, HmN; simpl.
           rewrite Hc; reflexivity.
Qed.

(** [applyEvents] returns as the new state the last state it published to
    subscribers (the start state if it published none), on success and on
    error alike; every event handed to [ProcessEvent] is followed by a
    publication, except the one whose processing failed. *)
Theorem applyEvents_state_and_notifications :
  forall fuel cur ev s' r tr,
    applyEvents ad env fuel cur ev = Some (s', r, tr) ->
    s' = lastCommitted cur tr /\
    List.length (filter isProcess tr) =
      (List.length (filter isNotify tr) + match r with None => 0 | Some _ => 1 end)%nat.
Proof.
  intros fuel cur ev; apply applyLoop_counts.
Qed.

Lemma lastPublished_app :
  forall (l1 l2 : list (@DriverAction State Event)) s,
    lastPublished s (l1 ++ l2) = lastPublished (lastPublished s l1) l2.
Proof.
  induction l1 as [|b l1 IH]; intros l2 s; [reflexivity|].
  destruct b; simpl; apply IH.
Qed.

Lemma split_after_first {A} (p : A -> bool) :
  forall (L tr pre post : list A) (x : A),
    (forall a, In a L -> p a = false) -> p x = true ->
    L ++ tr = pre ++ x :: post ->
    exists pre', pre = L ++ pre' /\ tr = pre' ++ x :: post.
Proof.
  induction L as [|b L IH]; intros tr pre post x HL Hx Heq.
  - exists pre; auto.
  - destruct pre as [|c pre]; simpl in Heq; injection Heq as Hb Heq.
    + subst b; rewrite (HL x (or_introl eq_refl)) in Hx; discriminate.
    + subst c; destruct (IH tr pre post x) as (pre' & -> & ->); auto.
      * intros a Ha; apply HL; right; exact Ha.
      * exists pre'; auto.
Qed.

(** The element [x] satisfying [p] cannot sit in a list none of whose
    elements satisfies [p]. *)
Lemma not_in_split {A} (p : A -> bool) :
  forall (l pre post : list A) (x : A),
    (forall a, In a l -> p a = false) -> p x = true -> l <> pre ++ x :: post.
Proof.
  intros l pre post x Hl Hx ->.
  rewrite (Hl x) in Hx; [discriminate|].
  apply in_or_app; right; left; reflexivity.
Qed.

Lemma driveEvent_ok :
  forall fuel cur ev acts cur',
    driveEvent ad env fuel cur ev = Some (acts, Some cur') ->
    exists bacts,
      acts = DBurst bacts :: (if IsTerminal cur' then [DCleanUp] else []) /\
      lastCommitted cur bacts = cur'.
Proof.
  intros fuel cur ev acts cur' Hd; unfold driveEvent in Hd.
  destruct (applyEvents ad env fuel cur ev) as [[[s' r] bacts]|] eqn:Ha; [|discriminate].
  destruct r as [err|]; [discriminate|].
  injection Hd as <- <-.
  exists bacts; split; [reflexivity|].
  symmetry; exact (proj1 (applyEvents_state_and_notifications _ _ _ _ _ _ Ha)).
Qed.

Lemma driveEvent_err :
  forall fuel cur ev acts,
    driveEvent ad env fuel cur ev = Some (acts, None) ->
    exists bacts err, acts = [DBurst bacts; DReport err; DStopSpawned; DExit].
Proof.
  intros fuel cur ev acts Hd; unfold driveEvent in Hd.
  destruct (applyEvents ad env fuel cur ev) as [[[s' r] bacts]|]; [|discriminate].
  destruct r as [err|]; [injection Hd as <-; eauto | discriminate].
Qed.





Lemma driveMachine_cases :
  forall fuel s0 init inputs tr,
    driveMachine ad env fuel s0 init inputs = Some tr ->
    exists pre0, (forall a, In a pre0 -> exists d calls, a = DInit d calls) /\
      (tr = pre0 ++ [DExit] \/
       exists tr', driveLoop ad env fuel s0 inputs = Some tr' /\
                   tr = pre0 ++ DNotify s0 :: tr').
Proof.
  intros fuel s0 init inputs tr Hm; unfold driveMachine in Hm.
  set (start := match init with
                | None => ([], None)
                | Some d => let (calls, r) := executeDaemonEvent ad d in ([DInit d calls], r)
                end) in Hm.
  assert (Hs : forall a, In a (fst start) -> exists d calls, a = DInit d calls).
  { subst start; destruct init as [d|];
      [destruct (executeDaemonEvent ad d) as [calls r]; intros a [<-|[]]; eauto
      | intros a []]. }
  exists (fst start); split; [exact Hs|].
  destruct (snd start).
  - injection Hm as <-; left; reflexivity.
  - destruct (driveLoop ad env fuel s0 inputs) as [tr'|] eqn:Hl; [|discriminate].
    injection Hm as <-; right; eauto.
Qed.

Lemma lastPublished_notify :
  forall (pre0 : list (@DriverAction State Event)) s s0,
    lastPublished s (pre0 ++ [DNotify s0]) = s0.
Proof. intros; rewrite lastPublished_app; reflexivity. Qed.

Lemma driveLoop_replies :
  forall fuel inputs cur tr,
    driveLoop ad env fuel cur inputs = Some tr ->
    forall pre st post, tr = pre ++ DReply st :: post -> st = lastPublished cur pre.
Proof.
  intros fuel inputs; induction inputs as [|inp rest IH];
    intros cur tr Hl pre st post Htr; simpl in Hl.
  - injection Hl as <-; destruct pre; discriminate.
  - destruct inp as [ev| |].
    + destruct (driveEvent ad env fuel cur ev) as [[acts [cur'|]]|] eqn:Hd;
        [| |discriminate].
      * destruct (driveLoop ad env fuel cur' rest) as [tr'|] eqn:Hr; [|discriminate].
        injection Hl as <-.
        destruct (driveEvent_ok _ _ _ _ _ Hd) as (bacts & -> & Hc).
        assert (HL : forall a, In a (DBurst bacts :: (if IsTerminal cur' then [DCleanUp] else []))
                               -> isReplyAct a = false).
        { intros a [<-|Ha]; [reflexivity|].
          destruct (IsTerminal cur'); simpl in Ha; [destruct Ha as [<-|[]]; reflexivity
                                                   | destruct Ha]. }
        destruct (split_after_first isReplyAct _ tr' pre post (DReply st) HL eq_refl Htr)
          as (pre' & -> & Htr').
        rewrite lastPublished_app.
        replace (lastPublished cur (DBurst bacts :: (if IsTerminal cur' then [DCleanUp] else [])))
          with cur' by (simpl; rewrite Hc; destruct (IsTerminal cur'); reflexivity).
        exact (IH _ _ Hr _ _ _ Htr').
      * injection Hl as <-.
        destruct (driveEvent_err _ _ _ _ Hd) as (bacts & err & ->).
        exfalso; refine (not_in_split isReplyAct _ pre post (DReply st) _ eq_refl Htr).
        intros a [<-|[<-|[<-|[<-|[]]]]]; reflexivity.
    + destruct (driveLoop ad env fuel cur rest) as [tr'|] eqn:Hr; [|discriminate].
      injection Hl as <-.
      destruct pre as [|x pre']; simpl in Htr; injection Htr as Hx Htr'.
      * subst; reflexivity.
      * subst x; exact (IH _ _ Hr _ _ _ Htr').
    + injection Hl as <-; destruct pre as [|x [|y pre']]; discriminate.
Qed.

(** Every state query that [driveMachine] answers gets the state last
    published to subscribers before it: the initial state, or the state
    committed by the last burst of [applyEvents]. *)
Theorem driveMachine_reply_is_last_published :
  forall fuel s0 init inputs tr,
    driveMachine ad env fuel s0 init inputs = Some tr ->
    forall pre st post, tr = pre ++ DReply st :: post -> st = lastPublished s0 pre.
Proof.
  intros fuel s0 init inputs tr Hm pre st post Htr.
  destruct (driveMachine_cases _ _ _ _ _ Hm) as (pre0 & H0 & [->|(tr' & Hl & ->)]).
  - exfalso; refine (not_in_split isReplyAct _ pre post (DReply st) _ eq_refl Htr).
    intros a Ha; apply in_app_or in Ha; destruct Ha as [Ha|[<-|[]]]; [|reflexivity].
    destruct (H0 a Ha) as (d & calls & ->); reflexivity.
  - assert (HL : forall a, In a (pre0 ++ [DNotify s0]) -> isReplyAct a = false).
    { intros a Ha; apply in_app_or in Ha; destruct Ha as [Ha|[<-|[]]]; [|reflexivity].
      destruct (H0 a Ha) as (d & calls & ->); reflexivity. }
    replace (pre0 ++ DNotify s0 :: tr') with ((pre0 ++ [DNotify s0]) ++ tr') in Htr
      by (rewrite <- app_assoc; reflexivity).
    destruct (split_after_first isReplyAct _ tr' pre post (DReply st) HL eq_refl Htr)
      as (pre' & -> & Htr').
    rewrite lastPublished_app, lastPublished_notify.
    exact (driveLoop_replies _ _ _ _ Hl _ _ _ Htr').
Qed.

Lemma driveLoop_cleanups :
  forall fuel inputs cur tr,
    driveLoop ad env fuel cur inputs = Some tr ->
    forall pre post, tr = pre ++ DCleanUp :: post ->
    exists pre' bacts, pre = pre' ++ [DBurst bacts] /\
                       IsTerminal (lastPublished cur pre) = true.
Proof.
  intros fuel inputs; induction inputs as [|inp rest IH];
    intros cur tr Hl pre post Htr; simpl in Hl.
  - injection Hl as <-; destruct pre; discriminate.
  - destruct inp as [ev| |].
    + destruct (driveEvent ad env fuel cur ev) as [[acts [cur'|]]|] eqn:Hd;
        [| |discriminate].
      * destruct (driveLoop ad env fuel cur' rest) as [tr'|] eqn:Hr; [|discriminate].
        injection Hl as <-.
        destruct (driveEvent_ok _ _ _ _ _ Hd) as (bacts & -> & Hc).
        destruct (split_after_first isCleanUpAct [DBurst bacts]
                    ((if IsTerminal cur' then [DCleanUp] else []) ++ tr') pre post DCleanUp
                    ltac:(intros a [<-|[]]; reflexivity) eq_refl Htr)
          as (p1 & -> & Hp1).
        destruct (IsTerminal cur') eqn:Ht; simpl in Hp1.
        -- destruct p1 as [|z p1']; simpl in Hp1.
           ++ exists [], bacts; split; [reflexivity|]; simpl; rewrite Hc; exact Ht.
           ++ injection Hp1 as <- Hp1'.
              destruct (IH _ _ Hr _ _ Hp1') as (pre'' & b & -> & Hterm).
              exists (DBurst bacts :: DCleanUp :: pre''), b; split; [reflexivity|].
              simpl; rewrite Hc; exact Hterm.
        -- destruct (IH _ _ Hr _ _ Hp1) as (pre'' & b & -> & Hterm).
           exists (DBurst bacts :: pre''), b; split; [reflexivity|].
           simpl; rewrite Hc; exact Hterm.
      * injection Hl as <-.
        destruct (driveEvent_err _ _ _ _ Hd) as (bacts & err & ->).
        exfalso; refine (not_in_split isCleanUpAct _ pre post DCleanUp _ eq_refl Htr).
        intros a [<-|[<-|[<-|[<-|[]]]]]; reflexivity.
    + destruct (driveLoop ad env fuel cur rest) as [tr'|] eqn:Hr; [|discriminate].
      injection Hl as <-.
      destruct pre as [|x pre']; simpl in Htr; [discriminate|].
      injection Htr as <- Htr'.
      destruct (IH _ _ Hr _ _ Htr') as (pre'' & b & -> & Hterm).
      exists (DReply cur :: pre''), b; split; [reflexivity | exact Hterm].
    + injection Hl as <-; destruct pre as [|x [|y pre']]; discriminate.
Qed.

(** [s.cfg.Env.CleanUp()] is only ever run right after a burst of
    [applyEvents] whose resulting state is terminal. *)
Theorem driveMachine_cleanup_after_terminal :
  forall fuel s0 init inputs tr,
    driveMachine ad env fuel s0 init inputs = Some tr ->
    forall pre post, tr = pre ++ DCleanUp :: post ->
    exists pre' bacts, pre = pre' ++ [DBurst bacts] /\
                       IsTerminal (lastPublished s0 pre) = true.
Proof.
  intros fuel s0 init inputs tr Hm pre post Htr.
  destruct (driveMachine_cases _ _ _ _ _ Hm) as (pre0 & H0 & [->|(tr' & Hl & ->)]).
  - exfalso; refine (not_in_split isCleanUpAct _ pre post DCleanUp _ eq_refl Htr).
    intros a Ha; apply in_app_or in Ha; destruct Ha as [Ha|[<-|[]]]; [|reflexivity].
    destruct (H0 a Ha) as (d & calls & ->); reflexivity.
  - assert (HL : forall a, In a (pre0 ++ [DNotify s0]) -> isCleanUpAct a = false).
    { intros a Ha; apply in_app_or in Ha; destruct Ha as [Ha|[<-|[]]]; [|reflexivity].
      destruct (H0 a Ha) as (d & calls & ->); reflexivity. }
    replace (pre0 ++ DNotify s0 :: tr') with ((pre0 ++ [DNotify s0]) ++ tr') in Htr
      by (rewrite <- app_assoc; reflexivity).
    destruct (split_after_first isCleanUpAct _ tr' pre post DCleanUp HL eq_refl Htr)
      as (pre' & -> & Htr').
    destruct (driveLoop_cleanups _ _ _ _ Hl _ _ Htr') as (pre'' & b & -> & Hterm).
    exists ((pre0 ++ [DNotify s0]) ++ pre''), b; split; [rewrite app_assoc; reflexivity|].
    rewrite lastPublished_app, lastPublished_notify; exact Hterm.
Qed.


Lemma qstep_exited :
  forall s1 s2, qstep ad env s1 s2 -> ExitedQueryInv s1 -> ExitedQueryInv s2.
Proof.
  intros s1 s2 Hs; unfold ExitedQueryInv.
  inversion Hs; subst; cbn; intros (Hd & Ha & Hr & Hc); try discriminate;
    (repeat split; auto);
    destruct Hc as [Hc|[Hq Hc]]; try discriminate; auto.
Qed.

Lemma qreach_exited :
  forall s1 s2, qreach ad env s1 s2 -> ExitedQueryInv s1 -> ExitedQueryInv s2.
Proof.
  intros s1 s2 Hr; induction Hr as [s|s1 s2 s3 Hs Hr IH]; intros Hi; auto.
  apply IH; exact (qstep_exited _ _ Hs Hi).
Qed.

(** A [CurrentState] call made after the driver has returned never gets a
    state: it stays blocked sending the query until [Stop()] closes the
    quit channel, and then fails with the shutting-down error. *)
Theorem CurrentState_after_driver_exit :
  forall q sys,
    qreach ad env (queryStart None q) sys ->
    caller sys = CSending \/
    (quitClosed sys = true /\ caller sys = CDone QShuttingDown).
Proof.
  intros q sys Hr.
  assert (Hi : ExitedQueryInv (queryStart (State := State) None q))
    by (unfold ExitedQueryInv; cbn; auto).
  exact (proj2 (proj2 (proj2 (qreach_exited _ _ Hr Hi)))).
Qed.

End Runtime.

Lemma executeDaemonEvent_failure_no_spawn_witness :
  exists c, fst (executeDaemonEvent (Event := unit) failAdapters
                   (DisableChannelEvent chanPoint0)) = [c] /\
            isAdapterCall c = true.
Proof.
  apply (executeDaemonEvent_failure_no_spawn (Event := unit) failAdapters
           (DisableChannelEvent chanPoint0) (ErrUnableToDisableChannel 3%nat));
    [reflexivity | discriminate].
Defined.

Lemma applyEvents_state_and_notifications_witness :
  applyEvents okAdapters tt 5 4%nat true =
    Some (5%nat, Some (ErrTransition 7%nat), effectBurst 4) /\
  (5%nat = lastCommitted 4%nat (effectBurst 4) /\
   List.length (filter isProcess (effectBurst 4)) =
     (List.length (filter isNotify (effectBurst 4)) + 1)%nat).
Proof.
  split; [vm_compute; reflexivity|].
  apply (applyEvents_state_and_notifications okAdapters tt 5 4%nat true 5%nat
           (Some (ErrTransition 7%nat)) (effectBurst 4)).
  vm_compute; reflexivity.
Defined.


Lemma driveMachine_reply_is_last_published_witness :
  driveMachine okAdapters tt 5 0%nat None [InEvent tt; InQuery; InEvent tt] =
    Some counterRun /\
  (forall pre st post, counterRun = pre ++ DReply st :: post ->
     st = lastPublished 0%nat pre).
Proof.
  split; [vm_compute; reflexivity|].
  apply (driveMachine_reply_is_last_published okAdapters tt 5 0%nat None
           [InEvent tt; InQuery; InEvent tt] counterRun).
  vm_compute; reflexivity.
Defined.

Lemma driveMachine_cleanup_after_terminal_witness :
  driveMachine okAdapters tt 5 0%nat None [InEvent tt; InQuery; InEvent tt] =
    Some counterRun /\
  (forall pre post, counterRun = pre ++ DCleanUp :: post ->
     exists pre' bacts, pre = pre' ++ [DBurst bacts] /\
                        @IsTerminal nat unit unit counterFsm (lastPublished 0%nat pre) = true).
Proof.
  split; [vm_compute; reflexivity|].
  apply (driveMachine_cleanup_after_terminal okAdapters tt 5 0%nat None
           [InEvent tt; InQuery; InEvent tt] counterRun).
  vm_compute; reflexivity.
Defined.


Lemma CurrentState_after_driver_exit_witness :
  qreach (Event := unit) okAdapters tt (queryStart None false)
    (mkQuerySys DExited true (CDone QShuttingDown) None None) /\
  (@CDone nat QShuttingDown = CSending \/
   (true = true /\ @CDone nat QShuttingDown = CDone QShuttingDown)).
Proof.
  assert (Hr : qreach (Event := unit) okAdapters tt (queryStart None false)
    (mkQuerySys DExited true (CDone QShuttingDown) None (@None nat))).
  { eapply qreach_step; [apply q_stop|].
    eapply qreach_step; [apply q_caller_quit|].
    apply qreach_refl. }
  split; [exact Hr|].
  exact (CurrentState_after_driver_exit okAdapters tt false _ Hr).
Defined.

End ProtofsmExtra.
